(** * perfect_sum.py : subset-sum search by size-ordered enumeration

    A shallow embedding of [find_matching_subset] from [perfect_sum.py]
    and the properties of the search that its specification states.

    Python integers are unbounded, hence [Z].  A Python list is a
    [list Z]; the function receives the caller's list object and may
    sort it in place, so the embedding returns, next to the Python
    value handed back, the contents of that list object after the call.
    The one library call that can raise ([itertools.combinations] on a
    negative size) is modelled in a small error monad. *)

From stdpp Require Import sorting numbers list.

Local Open Scope Z_scope.

(** ** Python values and outcomes *)

(** The function hands back either a list (the caller's own list in the
    first base case, a fresh [[]] when the search fails) or a tuple
    (what [combinations] yields).  In Python [() == []] is [False], so
    the two constructors are kept apart. *)
Inductive pyval : Type :=
  | PyList (xs : list Z)
  | PyTuple (xs : list Z).

Definition elements (v : pyval) : list Z :=
  match v with
  | PyList xs => xs
  | PyTuple xs => xs
  end.

(** [return []] : what the function hands back after an empty-handed
    search. *)
Definition not_found : pyval := PyList [].

Global Instance pyval_eq_dec : EqDecision pyval.
Proof. solve_decision. Defined.

Inductive exn : Type :=
  | ValueError.

Inductive res (A : Type) : Type :=
  | Ok (a : A)
  | Raise (e : exn).
Global Arguments Ok {A} a.
Global Arguments Raise {A} e.

Global Instance res_ret : MRet res := λ A a, Ok a.
Global Instance res_bind : MBind res := λ A B f m,
  match m with
  | Ok a => f a
  | Raise e => Raise e
  end.

(** What one call leaves behind: the returned value, the contents of
    the caller's list object afterwards, and the combinations that were
    drawn from [combinations] and summed, in order. *)
Record outcome : Type := Outcome {
  returned : pyval;
  population_after : list Z;
  drawn : list (list Z)
}.

(** ** Built-ins used by the source *)

(** [sum(xs)] : left-to-right accumulation starting from 0. *)
Definition sum (xs : list Z) : Z := foldl Z.add 0 xs.

(** [len(xs)] *)
Definition len {A} (xs : list A) : Z := Z.of_nat (length xs).

(** [range(n)] *)
Definition range (n : Z) : list Z := seqZ 0 n.

(** [xs[0:k]] ; a negative [k] counts from the end, and both ends are
    clamped to the list. *)
Definition slice_to {A} (xs : list A) (k : Z) : list A :=
  if decide (k < 0) then take (Z.to_nat (len xs + k)) xs
  else take (Z.to_nat k) xs.

(** [key=int] is the identity on integers. *)
Definition int (x : Z) : Z := x.

(** The order used by [sort(key=int, reverse=True)]. *)
Definition desc (x y : Z) : Prop := int y ≤ int x.

Global Instance desc_dec : RelDecision desc.
Proof. intros x y. unfold desc. apply _. Defined.

(** [xs.sort(key=int, reverse=True)] : the contents of [xs] afterwards. *)
Definition sort_desc (xs : list Z) : list Z := merge_sort desc xs.

(** [itertools.combinations(pool, r)] for [r >= 0] : the [r]-length
    subsequences of [pool], in lexicographic order of the positions
    chosen. *)
Fixpoint combinations {A} (pool : list A) (r : nat) : list (list A) :=
  match r, pool with
  | O, _ => [[]]
  | S _, [] => []
  | S r', x :: pool' =>
      ((x ::.) <$> combinations pool' r') ++ combinations pool' r
  end.

(** [combinations] raises [ValueError] when [r] is negative. *)
Definition py_combinations {A} (pool : list A) (r : Z) : res (list (list A)) :=
  if decide (r < 0) then Raise ValueError
  else Ok (combinations pool (Z.to_nat r)).

(** ** The search *)

(** The inner loop, lines 91-93: walk the combinations, stop at the
    first whose sum is the target.  The second component lists the
    combinations looked at. *)
Fixpoint scan (target_sum : Z) (cs : list (list Z))
  : option (list Z) * list (list Z) :=
  match cs with
  | [] => (None, [])
  | population_subset :: cs' =>
      if decide (sum population_subset = target_sum)
      then (Some population_subset, [population_subset])
      else let '(r, seen) := scan target_sum cs' in
           (r, population_subset :: seen)
  end.

(** The outer loop, lines 82-93, over the remaining depths. *)
Fixpoint search (population_list : list Z) (target_sum : Z) (depths : list Z)
  : res (option (list Z) * list (list Z)) :=
  match depths with
  | [] => Ok (None, [])
  | subset_depth :: depths' =>
      if decide (sum (slice_to population_list subset_depth) < target_sum)
      then search population_list target_sum depths'
      else
        cs ← py_combinations population_list subset_depth;
        match scan target_sum cs with
        | (Some population_subset, seen) => Ok (Some population_subset, seen)
        | (None, seen) =>
            '(r, seen') ← search population_list target_sum depths';
            Ok (r, seen ++ seen')
        end
  end.

Definition find_matching_subset (population_list : list Z) (target_sum : Z)
  : res outcome :=
  let total_population_sum := sum population_list in
  if decide (total_population_sum = target_sum ∨ total_population_sum = 0)
  then Ok (Outcome (PyList population_list) population_list [])
  else if decide (total_population_sum < target_sum)
  then Ok (Outcome (PyList []) population_list [])
  else
    let population_list := sort_desc population_list in
    '(r, seen) ← search population_list target_sum (range (len population_list));
    match r with
    | Some population_subset =>
        Ok (Outcome (PyTuple population_subset) population_list seen)
    | None => Ok (Outcome (PyList []) population_list seen)
    end.

(** The script's data. *)
Definition populations : list Z :=
  [18897109; 12828837; 9461105; 6371773; 5965343; 5946800; 5582170; 5564635;
   5268860; 4552402; 4335391; 4296250; 4224851; 4192887; 3439809; 3279833;
   3095313; 2812896; 2783243; 2710489; 2543482; 2356285; 2226009; 2149127;
   2142508; 2134411].

Definition target : Z := 100000000.

(** The subset recorded as the answer in the header of the script. *)
Definition recorded_answer : list Z :=
  [18897109; 12828837; 9461105; 6371773; 5946800; 5582170; 5268860; 4552402;
   4335391; 4296250; 4224851; 3279833; 3095313; 2812896; 2543482; 2226009;
   2142508; 2134411].

(** ** Vocabulary of the specification *)

(** Lexicographic comparison of two sequences of positions. *)
Inductive lex_lt : list nat → list nat → Prop :=
  | lex_lt_nil j qs : lex_lt [] (j :: qs)
  | lex_lt_head i j ps qs : (i < j)%nat → lex_lt (i :: ps) (j :: qs)
  | lex_lt_tail i ps qs : lex_lt ps qs → lex_lt (i :: ps) (i :: qs).

(** The elements of [pool] at the positions [ps], in that order. *)
Definition pick (pool : list Z) (ps : list nat) : list Z :=
  (pool !!!.) <$> ps.

(** The positions of a pool of [n] elements. *)
Definition positions (n : nat) : list nat := seq 0 n.

(** No subsequence of the pool of length [d] sums to the target. *)
Definition miss (pool : list Z) (target_sum : Z) (d : nat) : Prop :=
  ∀ c, sublist c pool → length c = d → sum c ≠ target_sum.

(** The result of a search over the sorted list: either every depth
    below the length misses, or some depth [d] holds the combination
    returned, every earlier depth misses, and so does every earlier
    combination at depth [d]. *)
Inductive searched (pool : list Z) (target_sum : Z) : pyval → Prop :=
  | searched_none :
      (∀ d, (d < length pool)%nat → miss pool target_sum d) →
      searched pool target_sum (PyList [])
  | searched_hit c d pre post :
      (d < length pool)%nat →
      (∀ d', (d' < d)%nat → miss pool target_sum d') →
      combinations pool d = pre ++ c :: post →
      Forall (λ c', sum c' ≠ target_sum) pre →
      sum c = target_sum →
      searched pool target_sum (PyTuple c).

(** [s] is a sub-multiset of the list whose elements sum to the target. *)
Definition solves (population_list : list Z) (target_sum : Z) (s : list Z) : Prop :=
  s ⊆+ population_list ∧ sum s = target_sum.

(** Number of occurrences of [x] in a sequence. *)
Definition occurrences (x : Z) (xs : list Z) : nat :=
  length (filter (x =.) xs).


(** C2 as stated: a solution is returned whenever one exists, and the
    not-found value only when none does. *)
Definition complete_as_stated (population_list : list Z) (target_sum : Z) : Prop :=
  ∃ o, find_matching_subset population_list target_sum = Ok o ∧
    ((∃ s, solves population_list target_sum s) →
     solves population_list target_sum (elements (returned o))) ∧
    (returned o = not_found → ∀ s, ¬ solves population_list target_sum s).

(** C10 as stated: outside the base cases the list is left as a
    descending permutation of its contents and not as it was; in the
    base cases it is left as it was. *)
Definition mutates_as_stated (population_list : list Z) (target_sum : Z) : Prop :=
  ∃ o, find_matching_subset population_list target_sum = Ok o ∧
    (sum population_list ≠ 0 → sum population_list ≠ target_sum →
     ¬ sum population_list < target_sum →
     population_after o ≡ₚ population_list ∧
     StronglySorted desc (population_after o) ∧
     population_after o ≠ population_list) ∧
    (sum population_list = 0 ∨ sum population_list = target_sum ∨
     sum population_list < target_sum →
     population_after o = population_list).

(** ** The script *)

(** Truth value of a sequence, as tested by [if result:] : it is
    non-empty. *)
Definition truth (v : pyval) : bool :=
  match elements v with
  | [] => false
  | _ :: _ => true
  end.

(** What the script prints.  [time] stands for the elapsed seconds, read
    from the clock around the call. *)
Inductive printed (time : Type) : Type :=
  | Found (target_sum : Z) (seconds : time) (result : pyval)
  | Failed (seconds : time).
Global Arguments Found {time} target_sum seconds result.
Global Arguments Failed {time} seconds.

(** Lines 98-107, for the list and target declared at the top of the
    script. *)
Definition main {time} (populations : list Z) (target : Z) (end_time : time)
  : res (printed time) :=
  o ← find_matching_subset populations target;
  let result := returned o in
  if truth result then Ok (Found target end_time result)
  else Ok (Failed end_time).

(** The number of combinations of each size up to [m] that a pool has. *)
Definition combinations_upto {A} (pool : list A) (m : nat) : nat :=
  sum_list_with (λ r, length (combinations pool r)) (seq 0 m).

(** ** Facts about [sum] *)

Section sum_facts.
Implicit Types xs ys : list Z.

Lemma foldl_add_acc xs a : foldl Z.add a xs = a + foldl Z.add 0 xs.
Proof.
  revert a. induction xs as [|x xs IH]; intros a; simpl; [lia|].
  rewrite (IH (a + x)), (IH (0 + x)). lia.
Qed.

Lemma sum_nil : sum [] = 0.
Proof. reflexivity. Qed.

Lemma sum_cons x xs : sum (x :: xs) = x + sum xs.
Proof. unfold sum. simpl. rewrite foldl_add_acc. lia. Qed.

Lemma sum_app xs ys : sum (xs ++ ys) = sum xs + sum ys.
Proof.
  induction xs as [|x xs IH]; simpl.
  - rewrite sum_nil. lia.
  - rewrite !sum_cons, IH. lia.
Qed.

Global Instance sum_Permutation : Proper ((≡ₚ) ==> (=)) sum.
Proof.
  intros xs ys Hp. induction Hp as [|x xs ys _ IH|x y xs|xs ys zs _ IH1 _ IH2].
  - reflexivity.
  - rewrite !sum_cons, IH. reflexivity.
  - rewrite !sum_cons. lia.
  - congruence.
Qed.

Lemma sum_nonneg xs : Forall (λ x, 0 < x) xs → 0 ≤ sum xs.
Proof.
  induction 1 as [|x xs Hx _ IH]; [rewrite sum_nil; lia|].
  rewrite sum_cons. lia.
Qed.

Lemma sum_positive xs : Forall (λ x, 0 < x) xs → xs ≠ [] → 0 < sum xs.
Proof.
  intros Hpos Hne. destruct Hpos as [|x xs Hx Hxs]; [done|].
  rewrite sum_cons. pose proof (sum_nonneg xs Hxs). lia.
Qed.

Lemma sum_zero_nil xs : Forall (λ x, 0 < x) xs → sum xs = 0 → xs = [].
Proof.
  intros Hpos Hz. destruct (decide (xs = [])) as [|Hne]; [done|].
  pose proof (sum_positive xs Hpos Hne). lia.
Qed.

Lemma sum_sublist_le xs ys :
  Forall (λ x, 0 < x) ys → sublist xs ys → sum xs ≤ sum ys.
Proof.
  intros Hpos Hsub. induction Hsub as [|x xs ys _ IH|x xs ys _ IH].
  - lia.
  - apply Forall_cons_1 in Hpos as [_ Hpos]. rewrite !sum_cons.
    specialize (IH Hpos). lia.
  - apply Forall_cons_1 in Hpos as [Hx Hpos]. rewrite sum_cons.
    specialize (IH Hpos). lia.
Qed.

Lemma sum_submseteq_le xs ys :
  Forall (λ x, 0 < x) ys → xs ⊆+ ys → sum xs ≤ sum ys.
Proof.
  intros Hpos (zs & Hp & Hsub)%submseteq_sublist_r.
  rewrite Hp. by apply sum_sublist_le.
Qed.
End sum_facts.

(** ** Facts about the in-place sort *)

Global Instance desc_total : Total desc.
Proof. intros x y. unfold desc, int. lia. Qed.

Global Instance desc_trans : Transitive desc.
Proof. intros x y z. unfold desc, int. lia. Qed.

Global Instance desc_antisymm : AntiSymm (=) desc.
Proof. intros x y. unfold desc, int. lia. Qed.

Lemma sort_desc_Permutation xs : sort_desc xs ≡ₚ xs.
Proof. apply merge_sort_Permutation. Qed.

Lemma sort_desc_sorted xs : StronglySorted desc (sort_desc xs).
Proof. apply StronglySorted_merge_sort; apply _. Qed.

Lemma sorted_desc_unique xs ys :
  StronglySorted desc xs → StronglySorted desc ys → xs ≡ₚ ys → xs = ys.
Proof. intros. by apply (StronglySorted_unique desc). Qed.

Lemma sort_desc_fixed xs : StronglySorted desc xs → sort_desc xs = xs.
Proof.
  intros Hs. apply sorted_desc_unique;
    [apply sort_desc_sorted|done|apply sort_desc_Permutation].
Qed.

Lemma sort_desc_idemp xs : sort_desc (sort_desc xs) = sort_desc xs.
Proof. apply sort_desc_fixed, sort_desc_sorted. Qed.

Lemma sum_sort_desc xs : sum (sort_desc xs) = sum xs.
Proof. by rewrite sort_desc_Permutation. Qed.

Lemma length_sort_desc xs : length (sort_desc xs) = length xs.
Proof. by rewrite sort_desc_Permutation. Qed.

(** ** Facts about [combinations] *)

Section combinations_facts.
Context {A : Type}.
Implicit Types pool c : list A.

Lemma combinations_0 pool : combinations pool 0 = [[]].
Proof. by destruct pool. Qed.

Lemma elem_of_combinations c pool r :
  c ∈ combinations pool r ↔ sublist c pool ∧ length c = r.
Proof.
  revert c r. induction pool as [|x pool IH]; intros c r.
  - destruct r as [|r]; simpl.
    + rewrite list_elem_of_singleton. split.
      * intros ->. split; [constructor|done].
      * intros [_ Hlen]. by apply nil_length_inv.
    + rewrite elem_of_nil. split; [done|].
      intros [Hsub Hlen]. apply sublist_nil_r in Hsub. by subst.
  - destruct r as [|r]; simpl.
    + rewrite list_elem_of_singleton. split.
      * intros ->. split; [apply sublist_nil_l|done].
      * intros [_ Hlen]. by apply nil_length_inv.
    + rewrite elem_of_app, list_elem_of_fmap, sublist_cons_r. split.
      * intros [(c' & -> & Hc')|Hc].
        -- apply IH in Hc' as [Hsub <-]. split; [|done]. right. eauto.
        -- apply IH in Hc as [Hsub Hlen]. split; [by left|done].
      * intros [[Hsub|(c' & -> & Hsub)] Hlen].
        -- right. apply IH. done.
        -- left. exists c'. split; [done|]. apply IH.
           simpl in Hlen. split; [done|lia].
Qed.

Lemma combinations_fmap {B} (f : A → B) pool r :
  combinations (f <$> pool) r = (fmap f : list A → list B) <$> combinations pool r.
Proof.
  revert r. induction pool as [|x pool IH]; intros [|r]; simpl; try done.
  rewrite fmap_app, !IH, <- !list_fmap_compose. done.
Qed.

End combinations_facts.

(** Positions are drawn in strictly increasing lexicographic order. *)
Lemma combinations_lex_sorted (pool : list nat) r :
  StronglySorted lt pool → StronglySorted lex_lt (combinations pool r).
Proof.
  revert r. induction pool as [|p pool IH]; intros r Hs.
  - destruct r; simpl; repeat constructor.
  - apply StronglySorted_cons in Hs as [Hp Hs].
    destruct r as [|r]; simpl; [repeat constructor|].
    apply StronglySorted_app_2.
    + intros c1 c2 (c & -> & _)%list_elem_of_fmap
        [Hsub Hlen]%elem_of_combinations.
      destruct c2 as [|q c2]; [done|].
      apply lex_lt_head. rewrite list.Forall_forall in Hp. apply Hp.
      eapply elem_of_sublist; [|done]. left.
    + eapply StronglySorted_fmap; [|by apply IH].
      intros c1 c2 ?. by apply lex_lt_tail.
    + by apply IH.
Qed.

Lemma positions_sorted n : StronglySorted lt (positions n).
Proof.
  unfold positions. generalize 0%nat. induction n as [|n IH]; intros j; simpl.
  - constructor.
  - constructor; [apply IH|].
    apply list.Forall_forall. intros i Hi%elem_of_seq. lia.
Qed.

Lemma pick_cons_S x pool ps : pick (x :: pool) (S <$> ps) = pick pool ps.
Proof. unfold pick. rewrite <- list_fmap_compose. done. Qed.

Lemma pick_positions pool : pick pool (positions (length pool)) = pool.
Proof.
  unfold positions. induction pool as [|x pool IH]; [done|].
  simpl. rewrite <- fmap_S_seq.
  change (x :: pick (x :: pool) (S <$> seq 0 (length pool)) = x :: pool).
  by rewrite pick_cons_S, IH.
Qed.

(** Every combination is the pool read at a combination of positions,
    and the two enumerations run in step. *)
Lemma combinations_pick pool r :
  combinations pool r =
  pick pool <$> combinations (positions (length pool)) r.
Proof.
  rewrite <- (pick_positions pool) at 1. unfold pick at 1.
  apply combinations_fmap.
Qed.

Lemma sublist_pick pool c :
  sublist c pool ↔ ∃ ps, sublist ps (positions (length pool)) ∧ c = pick pool ps.
Proof.
  split.
  - intros Hsub.
    assert (c ∈ combinations pool (length c)) as Hc
      by (by apply elem_of_combinations).
    rewrite combinations_pick in Hc.
    apply list_elem_of_fmap in Hc as (ps & -> & His).
    apply elem_of_combinations in His as [His _]. eauto.
  - intros (ps & His & ->).
    rewrite <- (pick_positions pool) at 2. by apply fmap_sublist.
Qed.

Lemma length_pick pool ps : length (pick pool ps) = length ps.
Proof. unfold pick. by rewrite length_fmap. Qed.

(** ** The pruning bound *)

Lemma slice_to_nat {A} (xs : list A) (k : nat) :
  slice_to xs (Z.of_nat k) = take k xs.
Proof.
  unfold slice_to. destruct (decide (Z.of_nat k < 0)) as [Hk|_]; [lia|].
  by rewrite Nat2Z.id.
Qed.

Lemma sum_take_cons_le x xs k :
  Forall (desc x) xs → (k ≤ length xs)%nat →
  sum (take k xs) ≤ sum (take k (x :: xs)).
Proof.
  intros Hx Hk. destruct k as [|k]; [done|].
  destruct (lookup_lt_is_Some_2 xs k) as [y Hy]; [lia|].
  rewrite (take_S_r _ _ _ Hy), firstn_cons, sum_app, !sum_cons, sum_nil.
  rewrite list.Forall_forall in Hx.
  assert (desc x y) as Hxy by (eapply Hx, list_elem_of_lookup_2, Hy).
  unfold desc, int in Hxy. lia.
Qed.

(** In a list sorted in descending order, no subsequence of length [k]
    sums to more than the first [k] elements do. *)
Lemma sum_sublist_le_prefix c xs :
  StronglySorted desc xs → sublist c xs →
  sum c ≤ sum (take (length c) xs).
Proof.
  intros Hs. revert c. induction Hs as [|x xs Hs IH Hx]; intros c Hsub.
  - apply sublist_nil_r in Hsub as ->. done.
  - apply sublist_cons_r in Hsub as [Hsub|(c' & -> & Hsub)].
    + etrans; [by apply IH|].
      apply sum_take_cons_le; [done|]. by apply sublist_length.
    + simpl. rewrite !sum_cons. specialize (IH _ Hsub). lia.
Qed.

Lemma pruned_miss pool target_sum (d : nat) :
  StronglySorted desc pool →
  sum (slice_to pool (Z.of_nat d)) < target_sum →
  miss pool target_sum d.
Proof.
  intros Hs Hlt c Hsub <-. rewrite slice_to_nat in Hlt.
  pose proof (sum_sublist_le_prefix c pool Hs Hsub). lia.
Qed.

(** ** The two loops *)

Lemma scan_None target_sum cs seen :
  scan target_sum cs = (None, seen) →
  Forall (λ c, sum c ≠ target_sum) cs ∧ seen = cs.
Proof.
  revert seen. induction cs as [|c cs IH]; intros seen; simpl.
  - intros [= <-]. done.
  - destruct (decide (sum c = target_sum)) as [|Hne]; [done|].
    destruct (scan target_sum cs) as [r seen'] eqn:E.
    intros [= -> <-]. destruct (IH _ eq_refl) as [Hall ->].
    split; [by constructor|done].
Qed.

Lemma scan_Some target_sum cs c seen :
  scan target_sum cs = (Some c, seen) →
  ∃ pre post, cs = pre ++ c :: post ∧
    Forall (λ c', sum c' ≠ target_sum) pre ∧
    sum c = target_sum ∧ seen = pre ++ [c].
Proof.
  revert seen. induction cs as [|c0 cs IH]; intros seen; simpl; [done|].
  destruct (decide (sum c0 = target_sum)) as [Heq|Hne].
  - intros [= <- <-]. exists [], cs. done.
  - destruct (scan target_sum cs) as [r seen'] eqn:E.
    intros [= -> <-]. destruct (IH _ eq_refl) as (pre & post & -> & Hpre & Hc & ->).
    exists (c0 :: pre), post. split_and!; [done|by constructor|done|done].
Qed.

Lemma search_total pool target_sum depths :
  Forall (λ d, 0 ≤ d) depths →
  ∃ r seen, search pool target_sum depths = Ok (r, seen).
Proof.
  induction 1 as [|d depths Hd _ (r & seen & IH)]; simpl; [by eauto|].
  destruct (decide (sum (slice_to pool d) < target_sum)); [by eauto|].
  unfold py_combinations. destruct (decide (d < 0)); [lia|]. simpl.
  destruct (scan target_sum (combinations pool (Z.to_nat d))) as [[c|] seen0];
    [by eauto|].
  rewrite IH. simpl. eauto.
Qed.

Lemma search_None pool target_sum depths seen :
  StronglySorted desc pool →
  Forall (λ d, 0 ≤ d) depths →
  search pool target_sum depths = Ok (None, seen) →
  Forall (λ d, miss pool target_sum (Z.to_nat d)) depths.
Proof.
  intros Hs Hds. revert seen.
  induction Hds as [|d depths Hd _ IH]; intros seen; simpl; [done|].
  destruct (decide (sum (slice_to pool d) < target_sum)) as [Hlt|_].
  - intros Hrest. constructor; [|by eapply IH].
    apply pruned_miss; [done|]. by rewrite Z2Nat.id.
  - unfold py_combinations. destruct (decide (d < 0)); [lia|]. simpl.
    destruct (scan target_sum (combinations pool (Z.to_nat d)))
      as [[c|] seen0] eqn:E; [done|].
    destruct (search pool target_sum depths) as [[r seen1]|e]; [|done].
    simpl. intros [= -> <-]. apply scan_None in E as [Hall _].
    constructor; [|by eapply IH].
    intros c Hsub Hlen. rewrite list.Forall_forall in Hall.
    apply Hall. by apply elem_of_combinations.
Qed.

Lemma search_Some pool target_sum depths c seen :
  StronglySorted desc pool →
  Forall (λ d, 0 ≤ d) depths →
  search pool target_sum depths = Ok (Some c, seen) →
  ∃ ds1 d ds2 pre post,
    depths = ds1 ++ d :: ds2 ∧
    Forall (λ d', miss pool target_sum (Z.to_nat d')) ds1 ∧
    combinations pool (Z.to_nat d) = pre ++ c :: post ∧
    Forall (λ c', sum c' ≠ target_sum) pre ∧
    sum c = target_sum.
Proof.
  intros Hs Hds. revert seen.
  induction Hds as [|d depths Hd Hds IH]; intros seen; simpl; [done|].
  assert (∀ seen', search pool target_sum depths = Ok (Some c, seen') →
    miss pool target_sum (Z.to_nat d) →
    ∃ ds1 d0 ds2 pre post,
      d :: depths = ds1 ++ d0 :: ds2 ∧
      Forall (λ d', miss pool target_sum (Z.to_nat d')) ds1 ∧
      combinations pool (Z.to_nat d0) = pre ++ c :: post ∧
      Forall (λ c', sum c' ≠ target_sum) pre ∧
      sum c = target_sum) as Hlater.
  { intros seen' Hrest Hmiss.
    destruct (IH _ Hrest) as (ds1 & d0 & ds2 & pre & post & -> & ? & ? & ? & ?).
    exists (d :: ds1), d0, ds2, pre, post.
    split_and!; [done|by constructor|done..]. }
  destruct (decide (sum (slice_to pool d) < target_sum)) as [Hlt|_].
  - intros Hrest. eapply Hlater; [done|].
    apply pruned_miss; [done|]. by rewrite Z2Nat.id.
  - unfold py_combinations. destruct (decide (d < 0)); [lia|]. simpl.
    destruct (scan target_sum (combinations pool (Z.to_nat d)))
      as [[c0|] seen0] eqn:E.
    + intros [= -> <-].
      apply scan_Some in E as (pre & post & Hcs & Hpre & Hc & _).
      exists [], d, depths, pre, post. done.
    + destruct (search pool target_sum depths) as [[r seen1]|e] eqn:E'; [|done].
      simpl. intros [= -> <-]. eapply Hlater; [done|].
      apply scan_None in E as [Hall _].
      intros c' Hsub Hlen. rewrite list.Forall_forall in Hall.
      apply Hall. by apply elem_of_combinations.
Qed.

(** ** The depths visited *)

Lemma range_nonneg n : Forall (λ d, 0 ≤ d) (range n).
Proof. apply Forall_seqZ. lia. Qed.

Lemma range_split_before n ds1 d ds2 (d' : nat) :
  range n = ds1 ++ d :: ds2 → (d' < Z.to_nat d)%nat →
  0 ≤ d < n ∧ Z.of_nat d' ∈ ds1.
Proof.
  unfold range. intros Hsplit Hlt.
  assert (seqZ 0 n !! length ds1 = Some d) as Hd
    by (rewrite Hsplit; apply list_lookup_middle; done).
  apply lookup_seqZ in Hd as [-> Hn]. split; [lia|].
  assert (seqZ 0 n !! d' = Some (Z.of_nat d')) as Hd'.
  { apply lookup_seqZ. lia. }
  rewrite Hsplit, lookup_app_l in Hd' by lia.
  by eapply list_elem_of_lookup_2.
Qed.

(** ** The three ways through [find_matching_subset] *)

Lemma find_matching_subset_base population_list target_sum :
  sum population_list = target_sum ∨ sum population_list = 0 →
  find_matching_subset population_list target_sum =
  Ok (Outcome (PyList population_list) population_list []).
Proof.
  intros Hbase. unfold find_matching_subset.
  by destruct (decide (sum population_list = target_sum
                       ∨ sum population_list = 0)).
Qed.

Lemma find_matching_subset_short population_list target_sum :
  sum population_list ≠ 0 → sum population_list < target_sum →
  find_matching_subset population_list target_sum =
  Ok (Outcome (PyList []) population_list []).
Proof.
  intros Hnz Hlt. unfold find_matching_subset.
  destruct (decide (sum population_list = target_sum
                    ∨ sum population_list = 0)) as [[|]|_]; [lia|done|].
  by destruct (decide (sum population_list < target_sum)).
Qed.

Lemma find_matching_subset_search population_list target_sum :
  sum population_list ≠ target_sum → sum population_list ≠ 0 →
  ¬ sum population_list < target_sum →
  ∃ v seen,
    find_matching_subset population_list target_sum =
      Ok (Outcome v (sort_desc population_list) seen) ∧
    searched (sort_desc population_list) target_sum v.
Proof.
  intros Hne Hnz Hge. unfold find_matching_subset.
  destruct (decide (sum population_list = target_sum
                    ∨ sum population_list = 0)) as [[|]|_]; [done..|].
  destruct (decide (sum population_list < target_sum)); [done|].
  set (pool := sort_desc population_list).
  pose proof (sort_desc_sorted population_list) as Hs. fold pool in Hs.
  destruct (search_total pool target_sum (range (len pool))
              (range_nonneg _)) as (r & seen & Hr).
  rewrite Hr. simpl. destruct r as [c|].
  - exists (PyTuple c), seen. split; [done|].
    apply search_Some in Hr
      as (ds1 & d & ds2 & pre & post & Hsplit & Hmiss & Hcs & Hpre & Hc);
      [|done|apply range_nonneg].
    assert (0 ≤ d < len pool) as Hd.
    { unfold range in Hsplit.
      assert (d ∈ seqZ 0 (len pool)) as Hin
        by (rewrite Hsplit; apply elem_of_app; right; left).
      apply elem_of_seqZ in Hin. lia. }
    apply (searched_hit _ _ c (Z.to_nat d) pre post); [|  |done..].
    + unfold len in Hd. lia.
    + intros d' Hd'.
      destruct (range_split_before _ _ _ _ d' Hsplit Hd') as [_ Hin].
      rewrite list.Forall_forall in Hmiss.
      specialize (Hmiss _ Hin). by rewrite Nat2Z.id in Hmiss.
  - exists (PyList []), seen. split; [done|].
    apply search_None in Hr; [|done|apply range_nonneg].
    apply searched_none. intros d Hd.
    unfold range in Hr. rewrite Forall_seqZ in Hr.
    specialize (Hr (Z.of_nat d)). rewrite Nat2Z.id in Hr.
    apply Hr. unfold len. lia.
Qed.

(** ** Consequences of a search *)

Lemma miss_submseteq pool target_sum s :
  miss pool target_sum (length s) → s ⊆+ pool → sum s ≠ target_sum.
Proof.
  intros Hmiss (s' & Hp & Hsub)%submseteq_sublist_r.
  rewrite Hp. apply Hmiss; [done|]. by rewrite Hp.
Qed.

Lemma submseteq_full_sum s pool :
  s ⊆+ pool → (length pool ≤ length s)%nat → sum s = sum pool.
Proof. intros Hs Hlen. by rewrite (submseteq_length_Permutation s pool). Qed.

Lemma searched_sound pool target_sum v :
  searched pool target_sum v →
  elements v = [] ∨ (sublist (elements v) pool ∧ sum (elements v) = target_sum).
Proof.
  intros [Hmiss|c d pre post Hd Hmiss Hcs Hpre Hc]; simpl; [by left|right].
  split; [|done].
  assert (c ∈ combinations pool d) as [? _]%elem_of_combinations; [|done].
  rewrite Hcs. apply elem_of_app. right. left.
Qed.

(** A solution other than the whole pool forces a hit, and the hit is no
    longer than the solution. *)
Lemma searched_complete pool target_sum v s :
  searched pool target_sum v → sum pool ≠ target_sum →
  s ⊆+ pool → sum s = target_sum →
  ∃ c, v = PyTuple c ∧ sublist c pool ∧ sum c = target_sum ∧
       (length c ≤ length s)%nat.
Proof.
  intros Hv Hne Hs Hsum.
  assert (length s < length pool)%nat as Hlen.
  { destruct (decide (length s < length pool)%nat) as [|Hge]; [done|].
    rewrite (submseteq_full_sum s pool) in Hsum by (done || lia). done. }
  destruct Hv as [Hmiss|c d pre post Hd Hmiss Hcs Hpre Hc].
  - destruct (miss_submseteq pool target_sum s); auto.
  - assert (c ∈ combinations pool d) as [Hsub Hlc]%elem_of_combinations.
    { rewrite Hcs. apply elem_of_app. right. left. }
    exists c. split_and!; [done..|].
    destruct (decide (length s < d)%nat) as [Hlt|]; [|lia].
    destruct (miss_submseteq pool target_sum s); auto.
Qed.

(** The positions behind a hit: the one returned comes first, by length
    and then lexicographically, among all that reach the target. *)
Lemma searched_first pool target_sum c :
  searched pool target_sum (PyTuple c) →
  ∃ ps, c = pick pool ps ∧ sublist ps (positions (length pool)) ∧
    ∀ qs, sublist qs (positions (length pool)) →
      sum (pick pool qs) = target_sum →
      (length ps < length qs)%nat ∨
      (length ps = length qs ∧ (ps = qs ∨ lex_lt ps qs)).
Proof.
  inv 1 as [|c' d pre post Hd Hmiss Hcs Hpre Hc].
  rewrite combinations_pick in Hcs.
  apply fmap_app_inv in Hcs as (ipre & irest & -> & Hirest & Hps).
  symmetry in Hirest.
  apply fmap_cons_inv in Hirest as (ps & ipost & -> & -> & ->).
  pose proof (combinations_lex_sorted _ d (positions_sorted (length pool)))
    as Hsorted.
  rewrite Hps in Hsorted.
  assert (ps ∈ combinations (positions (length pool)) d)
    as [Hsub Hlen]%elem_of_combinations.
  { rewrite Hps. apply elem_of_app. right. left. }
  exists ps. split_and!; [done..|].
  intros qs Hqs Hsum.
  destruct (lt_eq_lt_dec (length qs) d) as [[Hlt|Heq]|Hgt].
  - exfalso. apply (Hmiss _ Hlt (pick pool qs)); [|by rewrite length_pick|done].
    apply sublist_pick. eauto.
  - right. split; [lia|].
    assert (qs ∈ combinations (positions (length pool)) d) as Hin
      by (by apply elem_of_combinations).
    rewrite Hps in Hin.
    apply elem_of_app in Hin as [Hin|Hin].
    + exfalso. rewrite list.Forall_forall in Hpre.
      apply (Hpre (pick pool qs)); [|done].
      apply list_elem_of_fmap. eauto.
    + apply elem_of_cons in Hin as [->|Hin]; [by left|right].
      apply StronglySorted_app_1_r, StronglySorted_cons in Hsorted
        as [Hall _].
      rewrite list.Forall_forall in Hall. by apply Hall.
  - left. lia.
Qed.

Lemma find_matching_subset_cases population_list target_sum :
  ((sum population_list = target_sum ∨ sum population_list = 0) ∧
   find_matching_subset population_list target_sum =
     Ok (Outcome (PyList population_list) population_list []))
  ∨ (sum population_list ≠ 0 ∧ sum population_list < target_sum ∧
     find_matching_subset population_list target_sum =
       Ok (Outcome (PyList []) population_list []))
  ∨ (sum population_list ≠ 0 ∧ target_sum < sum population_list ∧
     ∃ v seen,
       find_matching_subset population_list target_sum =
         Ok (Outcome v (sort_desc population_list) seen) ∧
       searched (sort_desc population_list) target_sum v).
Proof.
  destruct (decide (sum population_list = target_sum
                    ∨ sum population_list = 0)) as [Hbase|Hnb].
  { left. split; [done|]. by apply find_matching_subset_base. }
  right. destruct (decide (sum population_list < target_sum)) as [Hlt|Hge].
  { left. split_and!; [lia|done|]. apply find_matching_subset_short; lia. }
  right. split_and!; [lia..|].
  apply find_matching_subset_search; lia.
Qed.

Lemma occurrences_submseteq x s xs :
  s ⊆+ xs → (occurrences x s ≤ occurrences x xs)%nat.
Proof.
  intros (k & Hk)%submseteq_Permutation. unfold occurrences.
  rewrite Hk, filter_app, length_app. lia.
Qed.

Lemma find_matching_subset_ok population_list target_sum :
  ∃ o, find_matching_subset population_list target_sum = Ok o.
Proof.
  destruct (find_matching_subset_cases population_list target_sum)
    as [[_ E]|[(_ & _ & E)|(_ & _ & v & seen & E & _)]]; eauto.
Qed.

(** What comes back for target 0. *)
Lemma zero_target_returned population_list o :
  Forall (λ x, 0 < x) population_list →
  find_matching_subset population_list 0 = Ok o →
  returned o = if decide (population_list = []) then PyList [] else PyTuple [].
Proof.
  intros Hpos Hrun.
  destruct (find_matching_subset_cases population_list 0)
    as [[Hbase E]|[(Hnz & Hlt & E)|(Hnz & _ & v & seen & E & Hv)]].
  - assert (population_list = []) as ->
      by (apply sum_zero_nil; [done|by destruct Hbase]).
    rewrite E in Hrun. by injection Hrun as <-.
  - pose proof (sum_nonneg _ Hpos). lia.
  - rewrite E in Hrun. injection Hrun as <-. simpl.
    assert (population_list ≠ []) as Hne by (by intros ->).
    destruct (decide (population_list = [])) as [|_]; [done|].
    assert (length (sort_desc population_list) ≠ 0%nat) as Hlen.
    { rewrite length_sort_desc. by destruct population_list. }
    assert (¬ miss (sort_desc population_list) 0 0) as Hhit.
    { intros Hmiss. apply (Hmiss []); [apply sublist_nil_l|done..]. }
    destruct Hv as [Hmiss|c d pre post Hd Hmiss Hcs Hpre Hc].
    + destruct Hhit. apply Hmiss. lia.
    + destruct d as [|d]; [|destruct Hhit; apply Hmiss; lia].
      rewrite combinations_0 in Hcs.
      destruct pre as [|? [|??]]; simplify_eq/=. done.
Qed.

(** What comes back when some sub-multiset reaches the target. *)
Lemma solution_returned population_list target_sum o s :
  Forall (λ x, 0 < x) population_list →
  find_matching_subset population_list target_sum = Ok o →
  solves population_list target_sum s →
  solves population_list target_sum (elements (returned o)) ∧
  (length (elements (returned o)) ≤ length s
   ∨ sum population_list = target_sum)%nat ∧
  (population_list ≠ [] ∨ target_sum ≠ 0 → returned o ≠ not_found).
Proof.
  intros Hpos Hrun [Hs Hsum].
  destruct (find_matching_subset_cases population_list target_sum)
    as [[Hbase E]|[(Hnz & Hlt & E)|(Hnz & Hgt & v & seen & E & Hv)]];
    rewrite E in Hrun; injection Hrun as <-; simpl.
  - assert (sum population_list = target_sum) as Htot.
    { destruct Hbase as [|Hz]; [done|].
      apply sum_zero_nil in Hz as ->; [|done].
      apply submseteq_nil_r in Hs as ->. by rewrite <- Hsum. }
    split_and!; [by split|by right|].
    intros Hne [= ->]. rewrite sum_nil in Htot. destruct Hne; [done|lia].
  - pose proof (sum_submseteq_le _ _ Hpos Hs). lia.
  - rewrite <- (sort_desc_Permutation population_list) in Hs.
    destruct (searched_complete _ _ v s Hv) as (c & -> & Hc & Hcsum & Hlen);
      [rewrite sum_sort_desc; lia|done..|].
    simpl. split_and!; [|by left|done].
    split; [|done]. rewrite <- (sort_desc_Permutation population_list).
    by apply sublist_submseteq.
Qed.

(** What comes back when no sub-multiset reaches the target. *)
Lemma no_solution_returned population_list target_sum o :
  Forall (λ x, 0 < x) population_list →
  find_matching_subset population_list target_sum = Ok o →
  (∀ s, ¬ solves population_list target_sum s) →
  returned o = not_found.
Proof.
  intros Hpos Hrun Hnone.
  destruct (find_matching_subset_cases population_list target_sum)
    as [[Hbase E]|[(Hnz & Hlt & E)|(Hnz & Hgt & v & seen & E & Hv)]];
    rewrite E in Hrun; injection Hrun as <-; simpl.
  - destruct Hbase as [Htot|Hz].
    + destruct (Hnone population_list). by split.
    + by rewrite (sum_zero_nil _ Hpos Hz).
  - done.
  - destruct Hv as [Hmiss|c d pre post Hd Hmiss Hcs Hpre Hc]; [done|].
    destruct (Hnone c). split; [|done].
    rewrite <- (sort_desc_Permutation population_list).
    apply sublist_submseteq.
    assert (c ∈ combinations (sort_desc population_list) d)
      as [? _]%elem_of_combinations; [|done].
    rewrite Hcs. apply elem_of_app. right. left.
Qed.

(** * The stated properties *)

(** C1. Soundness: on a list of positive integers and a non-negative
    target, a non-empty returned sequence sums to the target, and it is a
    sub-multiset of the input: no element occurs in it more often than
    in the input. *)
Theorem find_matching_subset_sound population_list target_sum o :
  Forall (λ x, 0 < x) population_list → 0 ≤ target_sum →
  find_matching_subset population_list target_sum = Ok o →
  elements (returned o) ≠ [] →
  sum (elements (returned o)) = target_sum ∧
  elements (returned o) ⊆+ population_list ∧
  ∀ x, (occurrences x (elements (returned o))
        ≤ occurrences x population_list)%nat.
Proof.
  intros Hpos Ht Hrun Hne.
  assert (sum (elements (returned o)) = target_sum ∧
          elements (returned o) ⊆+ population_list) as [Hsum Hsub].
  { destruct (find_matching_subset_cases population_list target_sum)
      as [[Hbase E]|[(_ & _ & E)|(_ & _ & v & seen & E & Hv)]];
      rewrite E in Hrun; injection Hrun as <-; simpl in *.
    - destruct Hbase as [Hsum|Hz]; [done|].
      by apply sum_zero_nil in Hz.
    - done.
    - destruct (searched_sound _ _ _ Hv) as [|[Hsub Hsum]]; [done|].
      split; [done|]. rewrite <- (sort_desc_Permutation population_list).
      by apply sublist_submseteq. }
  split_and!; [done..|]. intros x. by apply occurrences_submseteq.
Qed.

Lemma find_matching_subset_sound_witness :
  let population_list := [3; 5; 2] in
  let o := Outcome (PyTuple [5]) [5; 3; 2] [[5]] in
  find_matching_subset population_list 5 = Ok o ∧
  sum (elements (returned o)) = 5 ∧
  elements (returned o) ⊆+ population_list ∧
  ∀ x, (occurrences x (elements (returned o))
        ≤ occurrences x population_list)%nat.
Proof.
  intros population_list o. split; [reflexivity|].
  apply (find_matching_subset_sound [3; 5; 2] 5 o).
  - repeat constructor.
  - lia.
  - reflexivity.
  - simpl. discriminate.
Defined.

(** C5. Full-set base case: when the elements of the list sum to the
    target, the list itself is returned, in its original order, and no
    combination is drawn. *)
Theorem find_matching_subset_full_set population_list target_sum :
  sum population_list = target_sum →
  find_matching_subset population_list target_sum =
  Ok (Outcome (PyList population_list) population_list []).
Proof. intros Hsum. apply find_matching_subset_base. by left. Qed.

Lemma find_matching_subset_full_set_witness :
  find_matching_subset [2; 7; 4] 13 = Ok (Outcome (PyList [2; 7; 4]) [2; 7; 4] []).
Proof. apply (find_matching_subset_full_set [2; 7; 4] 13). reflexivity. Defined.

(** C6. Zero-target base case: on a list of positive integers and
    target 0 the returned sequence is empty; it is the (empty) input
    list when the input is empty and the empty tuple otherwise. *)
Theorem find_matching_subset_zero_target population_list :
  Forall (λ x, 0 < x) population_list →
  ∃ o, find_matching_subset population_list 0 = Ok o ∧
       elements (returned o) = [] ∧
       (population_list = [] → returned o = PyList []) ∧
       (population_list ≠ [] → returned o = PyTuple []).
Proof.
  intros Hpos. destruct (find_matching_subset_ok population_list 0) as [o Hrun].
  exists o. split; [done|].
  rewrite (zero_target_returned _ _ Hpos Hrun).
  by destruct (decide (population_list = [])).
Qed.

Lemma find_matching_subset_zero_target_witness :
  ∃ o, find_matching_subset [2; 3; 1] 0 = Ok o ∧
       elements (returned o) = [] ∧
       ([2; 3; 1] = [] → returned o = PyList []) ∧
       ([2; 3; 1] ≠ [] → returned o = PyTuple []).
Proof.
  apply (find_matching_subset_zero_target [2; 3; 1]). repeat constructor.
Defined.

(** C7. Unreachable target: when the target exceeds the sum of a list
    of positive integers, the empty list is returned, no combination
    is drawn and the list is left as it was. *)
Theorem find_matching_subset_unreachable population_list target_sum :
  Forall (λ x, 0 < x) population_list →
  sum population_list < target_sum →
  find_matching_subset population_list target_sum =
  Ok (Outcome not_found population_list []).
Proof.
  intros Hpos Hlt.
  destruct (decide (sum population_list = 0)) as [Hz|Hnz].
  - rewrite find_matching_subset_base by (by right).
    by rewrite (sum_zero_nil _ Hpos Hz).
  - by apply find_matching_subset_short.
Qed.

Lemma find_matching_subset_unreachable_witness :
  find_matching_subset [1; 2; 3] 100 = Ok (Outcome not_found [1; 2; 3] []).
Proof.
  apply (find_matching_subset_unreachable [1; 2; 3] 100).
  - repeat constructor.
  - reflexivity.
Defined.

(** C9. Totality: on a list of positive integers and a non-negative
    target the call returns a value, it does not raise; and when no
    sub-multiset reaches the target, the value returned is the ordinary
    value [[]]. *)
Theorem find_matching_subset_total population_list target_sum :
  Forall (λ x, 0 < x) population_list → 0 ≤ target_sum →
  ∃ o, find_matching_subset population_list target_sum = Ok o ∧
       ((∀ s, ¬ solves population_list target_sum s) →
        returned o = not_found).
Proof.
  intros Hpos _.
  destruct (find_matching_subset_ok population_list target_sum) as [o Hrun].
  exists o. split; [done|]. by apply no_solution_returned.
Qed.

Lemma find_matching_subset_total_witness :
  ∃ o, find_matching_subset [2; 4; 6] 5 = Ok o ∧
       ((∀ s, ¬ solves [2; 4; 6] 5 s) → returned o = not_found).
Proof.
  apply (find_matching_subset_total [2; 4; 6] 5).
  - repeat constructor.
  - lia.
Defined.

(** A call on the list as an earlier call with the same target left it
    takes the same way through the function. *)
Lemma find_matching_subset_again population_list target_sum o :
  find_matching_subset population_list target_sum = Ok o →
  find_matching_subset (population_after o) target_sum = Ok o.
Proof.
  intros Hrun.
  destruct (find_matching_subset_cases population_list target_sum)
    as [[Hbase E]|[(Hnz & Hlt & E)|(Hnz & Hgt & v & seen & E & Hv)]];
    rewrite E in Hrun; injection Hrun as <-; simpl; [done..|].
  rewrite <- E. unfold find_matching_subset.
  rewrite sum_sort_desc, sort_desc_idemp.
  destruct (decide (sum population_list = target_sum
                    ∨ sum population_list = 0)) as [[|]|_]; [lia..|].
  destruct (decide (sum population_list < target_sum)); [lia|]. done.
Qed.

(** C8. Determinism: the call returns a value, and the same call
    repeated on the same list object, as the first call left it, gives
    the same outcome: the same returned value, the same list contents
    and the same combinations drawn. *)
Theorem find_matching_subset_deterministic population_list target_sum :
  ∃ o, find_matching_subset population_list target_sum = Ok o ∧
       find_matching_subset (population_after o) target_sum = Ok o.
Proof.
  destruct (find_matching_subset_ok population_list target_sum) as [o Hrun].
  exists o. split; [done|]. by apply (find_matching_subset_again population_list).
Qed.

(** C10, as stated, fails on a list that is already in descending
    order: for [[7; 3; 2; 1]] and target 4 no base case applies, the
    list is sorted in place, and it is left exactly as it was. *)
Lemma mutates_as_stated_counterexample : ¬ mutates_as_stated [7; 3; 2; 1] 4.
Proof.
  intros (o & Hrun & Hsorted & _).
  injection Hrun as <-.
  destruct Hsorted as (_ & _ & Hchanged); [discriminate|discriminate| |].
  - vm_compute. discriminate.
  - by apply Hchanged.
Qed.

(** C10, amended. The call sorts the caller's list in place exactly when
    no base case applies: the list is then left as the descending
    permutation of its contents, which differs from the list as it was
    exactly when that was not already in descending order; in the base
    cases it is left as it was. *)
Theorem find_matching_subset_mutates population_list target_sum :
  ∃ o, find_matching_subset population_list target_sum = Ok o ∧
    (sum population_list ≠ 0 → sum population_list ≠ target_sum →
     ¬ sum population_list < target_sum →
     population_after o = sort_desc population_list ∧
     population_after o ≡ₚ population_list ∧
     StronglySorted desc (population_after o) ∧
     (population_after o = population_list ↔
      StronglySorted desc population_list)) ∧
    (sum population_list = 0 ∨ sum population_list = target_sum ∨
     sum population_list < target_sum →
     population_after o = population_list).
Proof.
  destruct (find_matching_subset_cases population_list target_sum)
    as [[Hbase E]|[(Hnz & Hlt & E)|(Hnz & Hgt & v & seen & E & Hv)]];
    eexists; (split; [exact E|]); simpl.
  - split; [|done]. intros. destruct Hbase; done.
  - split; [|done]. intros. done.
  - split; [|lia]. intros _ _ _.
    split_and!; [done|apply sort_desc_Permutation|apply sort_desc_sorted|].
    split; [|by apply sort_desc_fixed].
    intros <-. apply sort_desc_sorted.
Qed.

Lemma find_matching_subset_mutates_witness :
  (∃ o, find_matching_subset [2; 3; 1; 7] 4 = Ok o ∧
        population_after o = [7; 3; 2; 1]) ∧
  (∃ o, find_matching_subset [1; 2; 3] 100 = Ok o ∧
        population_after o = [1; 2; 3]).
Proof.
  split.
  - destruct (find_matching_subset_mutates [2; 3; 1; 7] 4)
      as (o & Hrun & Hsorted & _).
    exists o. split; [exact Hrun|].
    destruct Hsorted as (Hafter & _); [discriminate|discriminate| |exact Hafter].
    vm_compute. discriminate.
  - destruct (find_matching_subset_mutates [1; 2; 3] 100)
      as (o & Hrun & _ & Hkept).
    exists o. split; [exact Hrun|].
    apply Hkept. right. right. reflexivity.
Defined.




(** C2, as stated, fails on the empty list with target 0: the empty
    sub-multiset reaches the target, and the value returned, the input
    list [[]], is the not-found value. *)
Lemma complete_as_stated_counterexample : ¬ complete_as_stated [] 0.
Proof.
  intros (o & Hrun & _ & Hnone).
  injection Hrun as <-. apply (Hnone eq_refl []). by split.
Qed.

(** C2, amended. On a list of positive integers and a non-negative
    target: if some sub-multiset reaches the target, the returned
    sequence is such a sub-multiset; unless the list is empty and the
    target 0, the empty list is returned exactly when no sub-multiset
    reaches the target; and a size [k] whose [k] largest elements sum to
    less than the target holds no solution. *)
Theorem find_matching_subset_complete population_list target_sum :
  Forall (λ x, 0 < x) population_list → 0 ≤ target_sum →
  ∃ o, find_matching_subset population_list target_sum = Ok o ∧
    ((∃ s, solves population_list target_sum s) →
     solves population_list target_sum (elements (returned o))) ∧
    (population_list ≠ [] ∨ target_sum ≠ 0 →
     (returned o = not_found ↔ ∀ s, ¬ solves population_list target_sum s)) ∧
    (∀ k : nat,
       sum (slice_to (sort_desc population_list) (Z.of_nat k)) < target_sum →
       ∀ s, solves population_list target_sum s → length s ≠ k).
Proof.
  intros Hpos _.
  destruct (find_matching_subset_ok population_list target_sum) as [o Hrun].
  exists o. split_and!; [done| | |].
  - intros [s Hs]. by destruct (solution_returned _ _ _ _ Hpos Hrun Hs).
  - intros Hne. split.
    + intros Hnf s Hs.
      destruct (solution_returned _ _ _ _ Hpos Hrun Hs) as (_ & _ & Hfound).
      by apply Hfound.
    + by apply no_solution_returned.
  - intros k Hlt s [Hs Hsum] Hlen.
    rewrite <- (sort_desc_Permutation population_list) in Hs.
    apply (miss_submseteq (sort_desc population_list) target_sum s); [|done..].
    rewrite Hlen. apply pruned_miss; [apply sort_desc_sorted|done].
Qed.

Lemma find_matching_subset_complete_witness :
  ∃ o, find_matching_subset [4; 4; 4] 8 = Ok o ∧
    ((∃ s, solves [4; 4; 4] 8 s) → solves [4; 4; 4] 8 (elements (returned o))) ∧
    ([4; 4; 4] ≠ [] ∨ 8 ≠ 0 →
     (returned o = not_found ↔ ∀ s, ¬ solves [4; 4; 4] 8 s)) ∧
    (∀ k : nat,
       sum (slice_to (sort_desc [4; 4; 4]) (Z.of_nat k)) < 8 →
       ∀ s, solves [4; 4; 4] 8 s → length s ≠ k).
Proof.
  apply (find_matching_subset_complete [4; 4; 4] 8).
  - repeat constructor.
  - lia.
Defined.

(** C4. First match: on a list of positive integers whose total is not
    the (positive) target, if some sub-multiset reaches the target then
    the tuple returned is the sorted list read at positions [ps], where
    [ps] comes first among all increasing position sequences reaching
    the target, shorter sequences before longer ones and sequences of
    one length in lexicographic order; so no solution is shorter than
    the one returned. *)
Theorem find_matching_subset_first_match population_list target_sum :
  Forall (λ x, 0 < x) population_list → 0 < target_sum →
  sum population_list ≠ target_sum →
  (∃ s, solves population_list target_sum s) →
  ∃ o ps,
    find_matching_subset population_list target_sum = Ok o ∧
    returned o = PyTuple (pick (sort_desc population_list) ps) ∧
    sublist ps (positions (length population_list)) ∧
    sum (pick (sort_desc population_list) ps) = target_sum ∧
    (∀ qs, sublist qs (positions (length population_list)) →
       sum (pick (sort_desc population_list) qs) = target_sum →
       (length ps < length qs)%nat ∨
       (length ps = length qs ∧ (ps = qs ∨ lex_lt ps qs))) ∧
    (∀ s, solves population_list target_sum s →
       (length (elements (returned o)) ≤ length s)%nat).
Proof.
  intros Hpos Ht Hne [s Hs].
  destruct (find_matching_subset_cases population_list target_sum)
    as [[Hbase E]|[(Hnz & Hlt & E)|(Hnz & Hgt & v & seen & E & Hv)]].
  - destruct Hbase as [|Hz]; [done|]. destruct Hs as [Hs Hsum].
    apply sum_zero_nil in Hz as ->; [|done].
    apply submseteq_nil_r in Hs as ->. rewrite sum_nil in Hsum. lia.
  - destruct Hs as [Hs Hsum].
    pose proof (sum_submseteq_le _ _ Hpos Hs). lia.
  - destruct (solution_returned _ _ _ _ Hpos E Hs) as ([_ Hsum] & _ & _).
    simpl in Hsum.
    assert (∃ c, v = PyTuple c) as [c ->].
    { destruct Hs as [Hs Hssum].
      rewrite <- (sort_desc_Permutation population_list) in Hs.
      destruct (searched_complete _ _ v s Hv) as (c & -> & _);
        [rewrite sum_sort_desc; lia|done..|]. by exists c. }
    destruct (searched_first _ _ _ Hv) as (ps & -> & Hps & Hfirst).
    rewrite length_sort_desc in Hps, Hfirst.
    eexists _, ps. split; [exact E|]. simpl.
    split_and!; [done..|].
    intros s' Hs'.
    destruct (solution_returned _ _ _ _ Hpos E Hs') as (_ & [Hlen|Htot] & _);
      [done|lia].
Qed.

Lemma find_matching_subset_first_match_witness :
  ∃ o ps,
    find_matching_subset [3; 2; 5] 5 = Ok o ∧
    returned o = PyTuple (pick (sort_desc [3; 2; 5]) ps) ∧
    sublist ps (positions 3) ∧
    sum (pick (sort_desc [3; 2; 5]) ps) = 5 ∧
    (∀ qs, sublist qs (positions 3) →
       sum (pick (sort_desc [3; 2; 5]) qs) = 5 →
       (length ps < length qs)%nat ∨
       (length ps = length qs ∧ (ps = qs ∨ lex_lt ps qs))) ∧
    (∀ s, solves [3; 2; 5] 5 s →
       (length (elements (returned o)) ≤ length s)%nat).
Proof.
  apply (find_matching_subset_first_match [3; 2; 5] 5).
  - repeat constructor.
  - lia.
  - discriminate.
  - exists [3; 2]. split; [|reflexivity].
    apply sublist_submseteq. repeat constructor.
Defined.

(** ** The scenarios of the specification *)

Example scenario_5_3_2 :
  find_matching_subset [5; 3; 2] 5 =
  Ok (Outcome (PyTuple [5]) [5; 3; 2] [[5]]).
Proof. reflexivity. Qed.

Example scenario_4_4_4 :
  find_matching_subset [4; 4; 4] 8 =
  Ok (Outcome (PyTuple [4; 4]) [4; 4; 4] [[4; 4]]).
Proof. reflexivity. Qed.

Example scenario_1_2_3 :
  find_matching_subset [1; 2; 3] 100 = Ok (Outcome (PyList []) [1; 2; 3] []).
Proof. reflexivity. Qed.

Example scenario_empty :
  find_matching_subset [] 0 = Ok (Outcome (PyList []) [] []).
Proof. reflexivity. Qed.

(** Pruned depths are not enumerated: with target 4 the empty
    combination is never drawn, and the search stops at the first
    pair reaching the target. *)
Example scenario_pruned :
  find_matching_subset [2; 3; 1; 7] 4 =
  Ok (Outcome (PyTuple [3; 1]) [7; 3; 2; 1]
        [[7]; [3]; [2]; [1]; [7; 3]; [7; 2]; [7; 1]; [3; 2]; [3; 1]]).
Proof. reflexivity. Qed.

(** The script's own input is already in descending order, so the sort
    leaves it as it is; its total exceeds the target, so the search is
    entered; and the recorded answer is drawn from it and reaches the
    target. *)
Example populations_sorted : sort_desc populations = populations.
Proof. vm_compute. reflexivity. Qed.

Example populations_total : target < sum populations.
Proof. reflexivity. Qed.

Example recorded_answer_solves : solves populations target recorded_answer.
Proof.
  split; [|reflexivity]. apply sublist_submseteq.
  unfold recorded_answer, populations.
  repeat first [apply sublist_skip | apply sublist_cons].
  apply sublist_nil.
Qed.


(** * Further properties of the search *)

(** ** What the loops draw *)

Lemma search_trace pool target_sum depths r seen :
  Forall (λ d, 0 ≤ d) depths →
  search pool target_sum depths = Ok (r, seen) →
  Forall (λ c, sublist c pool ∧ Z.of_nat (length c) ∈ depths ∧
               ¬ sum (slice_to pool (Z.of_nat (length c))) < target_sum) seen ∧
  match r with
  | None => Forall (λ c, sum c ≠ target_sum) seen
  | Some c => ∃ seen', seen = seen' ++ [c] ∧
                       Forall (λ c', sum c' ≠ target_sum) seen'
  end ∧
  (length seen ≤
   sum_list_with (λ d, length (combinations pool (Z.to_nat d))) depths)%nat.
Proof.
  intros Hds. revert r seen.
  induction Hds as [|d depths Hd _ IH]; intros r seen; simpl.
  { intros [= <- <-]. split_and!; [constructor|constructor|done]. }
  assert (∀ seen0, Forall (λ c, sublist c pool ∧ Z.of_nat (length c) ∈ depths ∧
               ¬ sum (slice_to pool (Z.of_nat (length c))) < target_sum) seen0 →
          Forall (λ c, sublist c pool ∧ Z.of_nat (length c) ∈ d :: depths ∧
               ¬ sum (slice_to pool (Z.of_nat (length c))) < target_sum) seen0)
    as Hlater.
  { intros seen0 Hseen0. eapply Forall_impl; [exact Hseen0|].
    intros c (? & ? & ?). split_and!; [done|by right|done]. }
  destruct (decide (sum (slice_to pool d) < target_sum)) as [Hlt|Hge].
  { intros Hrest. destruct (IH _ _ Hrest) as (Hall & Hr & Hlen).
    split_and!; [by apply Hlater|done|lia]. }
  unfold py_combinations. destruct (decide (d < 0)); [lia|]. simpl.
  assert (∀ cs, cs ⊆ combinations pool (Z.to_nat d) →
          Forall (λ c, sublist c pool ∧ Z.of_nat (length c) ∈ d :: depths ∧
               ¬ sum (slice_to pool (Z.of_nat (length c))) < target_sum) cs)
    as Hhere.
  { intros cs Hcs. apply list.Forall_forall. intros c Hc.
    apply Hcs, elem_of_combinations in Hc as [Hsub Hlen].
    rewrite Hlen, Z2Nat.id by done. split_and!; [done|left|done]. }
  destruct (scan target_sum (combinations pool (Z.to_nat d)))
    as [[c|] seen0] eqn:E.
  - intros [= <- <-].
    apply scan_Some in E as (pre & post & Hcs & Hpre & Hc & ->).
    split_and!.
    + apply Hhere. rewrite Hcs. intros c' Hc'.
      apply elem_of_app in Hc' as [Hc'|Hc']; [apply elem_of_app; by left|].
      apply list_elem_of_singleton in Hc' as ->.
      apply elem_of_app. right. left.
    + by exists pre.
    + rewrite Hcs, !length_app. simpl. lia.
  - destruct (search pool target_sum depths) as [[r' seen1]|e]; [|done].
    simpl. intros [= <- <-].
    apply scan_None in E as [Hnone ->].
    destruct (IH _ _ eq_refl) as (Hall & Hr & Hlen).
    split_and!.
    + apply Forall_app. split; [by apply Hhere|by apply Hlater].
    + destruct r' as [c|].
      * destruct Hr as (seen' & -> & Hseen').
        exists (combinations pool (Z.to_nat d) ++ seen').
        split; [by rewrite (assoc_L (++))|]. by apply Forall_app.
      * by apply Forall_app.
    + rewrite length_app. lia.
Qed.

(** The search phase, with the run of the outer loop exposed. *)
Lemma find_matching_subset_search_run population_list target_sum :
  sum population_list ≠ target_sum → sum population_list ≠ 0 →
  ¬ sum population_list < target_sum →
  ∃ r seen,
    search (sort_desc population_list) target_sum
      (range (len (sort_desc population_list))) = Ok (r, seen) ∧
    find_matching_subset population_list target_sum =
      Ok (Outcome (match r with
                   | Some c => PyTuple c
                   | None => PyList []
                   end) (sort_desc population_list) seen).
Proof.
  intros Hne Hnz Hge. unfold find_matching_subset.
  destruct (decide (sum population_list = target_sum
                    ∨ sum population_list = 0)) as [[|]|_]; [done..|].
  destruct (decide (sum population_list < target_sum)); [done|].
  destruct (search_total (sort_desc population_list) target_sum
              (range (len (sort_desc population_list))) (range_nonneg _))
    as (r & seen & Hr).
  exists r, seen. split; [done|]. rewrite Hr. simpl. by destruct r.
Qed.

(** ** Counting combinations *)

Lemma sum_list_with_add {A} (g h : A → nat) (xs : list A) :
  sum_list_with (λ x, g x + h x)%nat xs =
  (sum_list_with g xs + sum_list_with h xs)%nat.
Proof. induction xs as [|x xs IH]; simpl; [done|]. rewrite IH. lia. Qed.

Lemma sum_list_with_zero {A} (g : A → nat) (xs : list A) :
  (∀ x, g x = 0%nat) → sum_list_with g xs = 0%nat.
Proof.
  intros Hg. induction xs as [|x xs IH]; simpl; [done|]. by rewrite Hg, IH.
Qed.

Lemma sum_list_with_fmap {A B} (f : A → B) (g : B → nat) (xs : list A) :
  sum_list_with g (f <$> xs) = sum_list_with (g ∘ f) xs.
Proof. induction xs as [|x xs IH]; csimpl; [done|]. by rewrite IH. Qed.

Lemma sum_list_with_ext {A} (g h : A → nat) (xs : list A) :
  (∀ x, g x = h x) → sum_list_with g xs = sum_list_with h xs.
Proof.
  intros Hgh. induction xs as [|x xs IH]; simpl; [done|]. by rewrite Hgh, IH.
Qed.

Lemma combinations_too_long {A} (pool : list A) r :
  (length pool < r)%nat → combinations pool r = [].
Proof.
  intros Hlt. destruct (combinations pool r) as [|c cs] eqn:E; [done|].
  assert (c ∈ combinations pool r) as [Hsub Hlen]%elem_of_combinations
    by (rewrite E; left).
  apply sublist_length in Hsub. lia.
Qed.

Lemma combinations_full {A} (pool : list A) :
  combinations pool (length pool) = [pool].
Proof.
  induction pool as [|x pool IH]; [done|]. simpl.
  rewrite IH, combinations_too_long by lia. done.
Qed.

Lemma combinations_upto_S {A} (pool : list A) m :
  combinations_upto pool (S m) =
  (length (combinations pool 0)
   + sum_list_with (λ r, length (combinations pool (S r))) (seq 0 m))%nat.
Proof.
  unfold combinations_upto. simpl. by rewrite <- fmap_S_seq, sum_list_with_fmap.
Qed.

Lemma combinations_upto_snoc {A} (pool : list A) m :
  combinations_upto pool (S m) =
  (combinations_upto pool m + length (combinations pool m))%nat.
Proof.
  unfold combinations_upto. rewrite seq_S, sum_list_with_app. simpl. lia.
Qed.

(** A pool of [n] elements has [2 ^ n] combinations in all. *)
Lemma combinations_upto_all {A} (pool : list A) m :
  (length pool < m)%nat → combinations_upto pool m = (2 ^ length pool)%nat.
Proof.
  revert m. induction pool as [|x pool IH]; intros [|m] Hm; simpl in Hm; try lia.
  - rewrite combinations_upto_S. simpl. by rewrite sum_list_with_zero.
  - rewrite combinations_upto_S.
    rewrite (sum_list_with_ext _
               (λ r, length (combinations pool r)
                     + length (combinations pool (S r)))%nat).
    2:{ intros r. simpl. by rewrite length_app, length_fmap. }
    rewrite sum_list_with_add. fold (combinations_upto pool m).
    pose proof (combinations_upto_S pool m) as HS.
    rewrite combinations_0 in HS. simpl in HS.
    rewrite (IH m) by lia. rewrite (IH (S m)) in HS by lia.
    rewrite combinations_0. simpl. lia.
Qed.

Lemma range_len_fmap {A} (pool : list A) :
  range (len pool) = Z.of_nat <$> seq 0 (length pool).
Proof.
  unfold range, len, seqZ. rewrite Nat2Z.id.
  apply list_fmap_ext. intros _ i _. lia.
Qed.

(** All the combinations the outer loop can reach: every size below the
    length of the pool. *)
Lemma combinations_in_range {A} (pool : list A) :
  sum_list_with (λ d, length (combinations pool (Z.to_nat d)))
    (range (len pool)) = (2 ^ length pool - 1)%nat.
Proof.
  rewrite range_len_fmap, sum_list_with_fmap.
  rewrite (sum_list_with_ext _ (λ r, length (combinations pool r))).
  2:{ intros i. simpl. by rewrite Nat2Z.id. }
  fold (combinations_upto pool (length pool)).
  pose proof (combinations_upto_snoc pool (length pool)) as Hsnoc.
  rewrite combinations_upto_all, combinations_full in Hsnoc by lia.
  simpl in Hsnoc. lia.
Qed.

(** ** Outcomes as a whole *)

Lemma StronglySorted_sublist {A} (R : relation A) (xs ys : list A) :
  sublist xs ys → StronglySorted R ys → StronglySorted R xs.
Proof.
  induction 1 as [|x xs ys Hsub IH|x xs ys Hsub IH];
    intros [Hall Hs]%StronglySorted_cons || intros Hs; [done| |by auto].
  apply StronglySorted_cons. split; [|by auto].
  rewrite list.Forall_forall in Hall |- *.
  intros y Hy. apply Hall. by eapply elem_of_sublist.
Qed.

Lemma outcome_trace population_list target_sum o :
  find_matching_subset population_list target_sum = Ok o →
  Forall (λ c, sublist c (population_after o) ∧
               (length c < length population_list)%nat ∧
               ¬ sum (take (length c) (population_after o)) < target_sum)
         (drawn o) ∧
  match returned o with
  | PyTuple c => ∃ seen', drawn o = seen' ++ [c] ∧
                          Forall (λ c', sum c' ≠ target_sum) seen'
  | PyList _ => Forall (λ c, sum c ≠ target_sum) (drawn o)
  end ∧
  (length (drawn o) < 2 ^ length population_list)%nat.
Proof.
  intros Hrun.
  assert (0 < 2 ^ length population_list)%nat as Hpow
    by (apply Nat.neq_0_lt_0, Nat.pow_nonzero; lia).
  destruct (find_matching_subset_cases population_list target_sum)
    as [[Hbase E]|[(Hnz & Hlt & E)|(Hnz & Hgt & _)]].
  - rewrite E in Hrun. injection Hrun as <-. simpl.
    split_and!; [constructor|constructor|done].
  - rewrite E in Hrun. injection Hrun as <-. simpl.
    split_and!; [constructor|constructor|done].
  - destruct (find_matching_subset_search_run population_list target_sum)
      as (r & seen & Hsearch & E); [lia..|].
    rewrite E in Hrun. injection Hrun as <-. simpl.
    apply search_trace in Hsearch as (Hall & Hr & Hlen); [|apply range_nonneg].
    rewrite combinations_in_range, length_sort_desc in Hlen.
    split_and!; [|by destruct r|lia].
    eapply Forall_impl; [exact Hall|].
    intros c (Hsub & Hin & Hprefix). rewrite slice_to_nat in Hprefix.
    split_and!; [done| |done].
    unfold range, len in Hin. apply elem_of_seqZ in Hin.
    rewrite length_sort_desc in Hin. lia.
Qed.

Lemma outcome_tuple population_list target_sum o c :
  find_matching_subset population_list target_sum = Ok o →
  returned o = PyTuple c →
  population_after o = sort_desc population_list ∧
  sublist c (population_after o) ∧
  StronglySorted desc c ∧
  (length c < length population_list)%nat ∧
  sum c = target_sum.
Proof.
  intros Hrun Hret.
  destruct (find_matching_subset_cases population_list target_sum)
    as [[Hbase E]|[(Hnz & Hlt & E)|(Hnz & Hgt & v & seen & E & Hv)]];
    rewrite E in Hrun; injection Hrun as <-; simpl in *; [done..|].
  subst v. inv Hv as [|c' d pre post Hd Hmiss Hcs Hpre Hc].
  assert (c ∈ combinations (sort_desc population_list) d)
    as [Hsub Hlen]%elem_of_combinations.
  { rewrite Hcs. apply elem_of_app. right. left. }
  split_and!; [done|done| | |done].
  - eapply StronglySorted_sublist; [done|apply sort_desc_sorted].
  - rewrite length_sort_desc in Hd. lia.
Qed.

(** Two arrangements of the same elements. *)
Lemma outcome_permuted population_list population_list' target_sum :
  population_list ≡ₚ population_list' →
  ∃ o o',
    find_matching_subset population_list target_sum = Ok o ∧
    find_matching_subset population_list' target_sum = Ok o' ∧
    elements (returned o) ≡ₚ elements (returned o') ∧
    population_after o ≡ₚ population_after o' ∧
    drawn o = drawn o' ∧
    (sum population_list ≠ target_sum → sum population_list ≠ 0 →
     returned o = returned o').
Proof.
  intros Hp.
  assert (sum population_list' = sum population_list) as Hsum by (by rewrite Hp).
  assert (sort_desc population_list' = sort_desc population_list) as Hsort.
  { apply sorted_desc_unique; [apply sort_desc_sorted..|].
    by rewrite !sort_desc_Permutation. }
  destruct (find_matching_subset_cases population_list target_sum)
    as [[Hbase E]|[(Hnz & Hlt & E)|(Hnz & Hgt & _)]].
  - eexists _, _. split; [exact E|].
    split; [apply find_matching_subset_base; by rewrite Hsum|]. simpl.
    split_and!; [done..|]. intros. by destruct Hbase.
  - eexists _, _. split; [exact E|].
    split; [apply find_matching_subset_short; by rewrite Hsum|]. simpl.
    split_and!; done.
  - destruct (find_matching_subset_ok population_list target_sum) as [o E].
    exists o, o. split; [done|]. split; [|done].
    rewrite <- E. unfold find_matching_subset. rewrite Hsum, Hsort.
    destruct (decide (sum population_list = target_sum
                      ∨ sum population_list = 0)) as [[|]|_]; [lia..|].
    destruct (decide (sum population_list < target_sum)); [lia|]. done.
Qed.

Lemma population_after_Permutation population_list target_sum o :
  find_matching_subset population_list target_sum = Ok o →
  population_after o ≡ₚ population_list.
Proof.
  intros Hrun.
  destruct (find_matching_subset_cases population_list target_sum)
    as [[_ E]|[(_ & _ & E)|(_ & _ & v & seen & E & _)]];
    rewrite E in Hrun; injection Hrun as <-; simpl; [done..|].
  apply sort_desc_Permutation.
Qed.

(** * Further properties *)

(** X1. Soundness without the sign restriction: for a list of integers
    of any sign whose total is not 0, every value returned other than
    [[]] is a sub-multiset of the list summing to the target. *)
Theorem sound_on_integers population_list target_sum o :
  sum population_list ≠ 0 →
  find_matching_subset population_list target_sum = Ok o →
  returned o ≠ not_found →
  solves population_list target_sum (elements (returned o)).
Proof.
  intros Hnz Hrun Hfound.
  destruct (find_matching_subset_cases population_list target_sum)
    as [[Hbase E]|[(_ & _ & E)|(_ & _ & v & seen & E & Hv)]];
    rewrite E in Hrun; injection Hrun as <-; simpl in *.
  - destruct Hbase; [by split|done].
  - done.
  - destruct Hv as [Hmiss|c d pre post Hd Hmiss Hcs Hpre Hc]; [done|].
    simpl. split; [|done].
    rewrite <- (sort_desc_Permutation population_list).
    apply sublist_submseteq.
    assert (c ∈ combinations (sort_desc population_list) d)
      as [? _]%elem_of_combinations; [|done].
    rewrite Hcs. apply elem_of_app. right. left.
Qed.

Lemma sound_on_integers_witness :
  let o := Outcome (PyTuple [7; -3]) [7; 2; -3]
             [[7]; [2]; [-3]; [7; 2]; [7; -3]] in
  find_matching_subset [7; -3; 2] 4 = Ok o ∧
  solves [7; -3; 2] 4 (elements (returned o)).
Proof.
  intros o. split; [reflexivity|].
  apply (sound_on_integers [7; -3; 2] 4 o).
  - discriminate.
  - reflexivity.
  - discriminate.
Defined.

(** X2. The search itself needs no sign restriction: for a list of
    integers of any sign whose total is neither 0 nor below the target,
    if some sub-multiset sums to the target then one is returned, and
    unless it is the whole list it has no more elements than any other
    solution. *)
Theorem complete_on_integers population_list target_sum s :
  sum population_list ≠ 0 → ¬ sum population_list < target_sum →
  solves population_list target_sum s →
  ∃ o, find_matching_subset population_list target_sum = Ok o ∧
       solves population_list target_sum (elements (returned o)) ∧
       returned o ≠ not_found ∧
       (sum population_list ≠ target_sum →
        (length (elements (returned o)) ≤ length s)%nat).
Proof.
  intros Hnz Hge [Hs Hsum].
  destruct (find_matching_subset_cases population_list target_sum)
    as [[Hbase E]|[(_ & Hlt & _)|(_ & Hgt & v & seen & E & Hv)]]; [|done|].
  - eexists. split; [exact E|]. simpl.
    destruct Hbase as [Htot|]; [|done].
    split_and!; [by split| |done].
    intros [= ->]. by rewrite sum_nil in Hnz.
  - eexists. split; [exact E|]. simpl.
    rewrite <- (sort_desc_Permutation population_list) in Hs.
    destruct (searched_complete _ _ v s Hv) as (c & -> & Hc & Hcsum & Hlen);
      [rewrite sum_sort_desc; lia|done..|].
    simpl. split_and!; [|done|done].
    split; [|done]. rewrite <- (sort_desc_Permutation population_list).
    by apply sublist_submseteq.
Qed.

Lemma complete_on_integers_witness :
  let s := [7; -3] in
  ∃ o, find_matching_subset [7; -3; 2] 4 = Ok o ∧
       solves [7; -3; 2] 4 (elements (returned o)) ∧
       returned o ≠ not_found ∧
       (sum [7; -3; 2] ≠ 4 →
        (length (elements (returned o)) ≤ length s)%nat).
Proof.
  intros s. apply (complete_on_integers [7; -3; 2] 4 [7; -3]).
  - discriminate.
  - vm_compute. discriminate.
  - split; [|reflexivity]. apply sublist_submseteq. repeat constructor.
Defined.

(** X3. A tuple is returned only after the sort: the caller's list is
    then in descending order, the tuple is a subsequence of it, hence in
    descending order itself, and it has fewer elements than the list. *)
Theorem tuple_result_shape population_list target_sum o c :
  find_matching_subset population_list target_sum = Ok o →
  returned o = PyTuple c →
  population_after o = sort_desc population_list ∧
  sublist c (population_after o) ∧
  StronglySorted desc c ∧
  (length c < length population_list)%nat.
Proof.
  intros Hrun Hret.
  destruct (outcome_tuple _ _ _ _ Hrun Hret) as (? & ? & ? & ? & _). done.
Qed.

Lemma tuple_result_shape_witness :
  let o := Outcome (PyTuple [3; 1]) [7; 3; 2; 1]
             [[7]; [3]; [2]; [1]; [7; 3]; [7; 2]; [7; 1]; [3; 2]; [3; 1]] in
  let population_list := [2; 3; 1; 7] in
  let c := [3; 1] in
  find_matching_subset population_list 4 = Ok o ∧
  population_after o = sort_desc population_list ∧
  sublist c (population_after o) ∧
  StronglySorted desc c ∧
  (length c < length population_list)%nat.
Proof.
  intros o population_list c. split; [reflexivity|].
  apply (tuple_result_shape population_list 4 o c); reflexivity.
Defined.

(** X4. What is never drawn: every combination drawn and summed is a
    subsequence of the sorted list with fewer elements than the list,
    and of a size whose largest elements reach the target; the whole
    list and the pruned sizes are never enumerated. *)
Theorem drawn_respects_pruning population_list target_sum o :
  find_matching_subset population_list target_sum = Ok o →
  Forall (λ c, sublist c (population_after o) ∧
               (length c < length population_list)%nat ∧
               ¬ sum (take (length c) (population_after o)) < target_sum)
         (drawn o).
Proof. intros Hrun. by destruct (outcome_trace _ _ _ Hrun) as (? & _ & _). Qed.

Lemma drawn_respects_pruning_witness :
  let o := Outcome (PyTuple [3; 1]) [7; 3; 2; 1]
             [[7]; [3]; [2]; [1]; [7; 3]; [7; 2]; [7; 1]; [3; 2]; [3; 1]] in
  let population_list := [2; 3; 1; 7] in
  find_matching_subset population_list 4 = Ok o ∧
  Forall (λ c, sublist c (population_after o) ∧
               (length c < length population_list)%nat ∧
               ¬ sum (take (length c) (population_after o)) < 4)
         (drawn o).
Proof.
  intros o population_list. split; [reflexivity|].
  apply (drawn_respects_pruning population_list 4 o). reflexivity.
Defined.

(** X5. The search stops at the first match: a returned tuple is the
    last combination drawn and no combination drawn before it sums to
    the target; when a list is returned, no combination drawn sums to
    the target. *)
Theorem drawn_stops_at_first_match population_list target_sum o :
  find_matching_subset population_list target_sum = Ok o →
  match returned o with
  | PyTuple c => ∃ seen', drawn o = seen' ++ [c] ∧
                          Forall (λ c', sum c' ≠ target_sum) seen'
  | PyList _ => Forall (λ c, sum c ≠ target_sum) (drawn o)
  end.
Proof. intros Hrun. by destruct (outcome_trace _ _ _ Hrun) as (_ & ? & _). Qed.

Lemma drawn_stops_at_first_match_witness :
  let o := Outcome (PyList []) [6; 4; 2]
             [[6]; [4]; [2]; [6; 4]; [6; 2]; [4; 2]] in
  find_matching_subset [2; 4; 6] 5 = Ok o ∧
  Forall (λ c, sum c ≠ 5) (drawn o).
Proof.
  intros o. split; [reflexivity|].
  apply (drawn_stops_at_first_match [2; 4; 6] 5 o). reflexivity.
Defined.

(** X6. Cost: a call on a list of [n] integers draws and sums fewer
    than [2 ^ n] combinations. *)
Theorem drawn_bound population_list target_sum o :
  find_matching_subset population_list target_sum = Ok o →
  (length (drawn o) < 2 ^ length population_list)%nat.
Proof. intros Hrun. by destruct (outcome_trace _ _ _ Hrun) as (_ & _ & ?). Qed.

Lemma drawn_bound_witness :
  let o := Outcome (PyList []) [6; 4; 2]
             [[6]; [4]; [2]; [6; 4]; [6; 2]; [4; 2]] in
  let population_list := [2; 4; 6] in
  find_matching_subset population_list 5 = Ok o ∧
  (length (drawn o) < 2 ^ length population_list)%nat.
Proof.
  intros o population_list. split; [reflexivity|].
  apply (drawn_bound population_list 5 o). reflexivity.
Defined.

(** X7. The order of the input does not matter to the search: two
    arrangements of the same integers lead to the same combinations
    drawn and to the same elements returned; outside the first base
    case, where the list itself is handed back, to the same value. *)
Theorem permutation_invariance population_list population_list' target_sum :
  population_list ≡ₚ population_list' →
  ∃ o o',
    find_matching_subset population_list target_sum = Ok o ∧
    find_matching_subset population_list' target_sum = Ok o' ∧
    elements (returned o) ≡ₚ elements (returned o') ∧
    population_after o ≡ₚ population_after o' ∧
    drawn o = drawn o' ∧
    (sum population_list ≠ target_sum → sum population_list ≠ 0 →
     returned o = returned o').
Proof. apply outcome_permuted. Qed.

Lemma permutation_invariance_witness :
  ∃ o o',
    find_matching_subset [3; 5; 2] 7 = Ok o ∧
    find_matching_subset [2; 3; 5] 7 = Ok o' ∧
    elements (returned o) ≡ₚ elements (returned o') ∧
    population_after o ≡ₚ population_after o' ∧
    drawn o = drawn o' ∧
    (sum [3; 5; 2] ≠ 7 → sum [3; 5; 2] ≠ 0 → returned o = returned o').
Proof.
  apply (permutation_invariance [3; 5; 2] [2; 3; 5] 7).
  symmetry. apply (Permutation_cons_append [3; 5] 2).
Defined.

(** X8. The in-place sort does not disturb later searches: after a
    call, a search for any target on the list as it was left draws the
    same combinations and returns the same elements as it would on the
    original list; outside the first base case, the same value. *)
Theorem later_search_unaffected population_list target_sum o target_sum' :
  find_matching_subset population_list target_sum = Ok o →
  ∃ o1 o2,
    find_matching_subset population_list target_sum' = Ok o1 ∧
    find_matching_subset (population_after o) target_sum' = Ok o2 ∧
    elements (returned o1) ≡ₚ elements (returned o2) ∧
    drawn o1 = drawn o2 ∧
    (sum population_list ≠ target_sum' → sum population_list ≠ 0 →
     returned o1 = returned o2).
Proof.
  intros Hrun.
  pose proof (population_after_Permutation _ _ _ Hrun) as Hp.
  symmetry in Hp.
  destruct (outcome_permuted _ _ target_sum' Hp)
    as (o1 & o2 & ? & ? & ? & _ & ? & ?).
  exists o1, o2. done.
Qed.

Lemma later_search_unaffected_witness :
  let o := Outcome (PyTuple [3; 1]) [7; 3; 2; 1]
             [[7]; [3]; [2]; [1]; [7; 3]; [7; 2]; [7; 1]; [3; 2]; [3; 1]] in
  find_matching_subset [2; 3; 1; 7] 4 = Ok o ∧
  ∃ o1 o2,
    find_matching_subset [2; 3; 1; 7] 9 = Ok o1 ∧
    find_matching_subset (population_after o) 9 = Ok o2 ∧
    elements (returned o1) ≡ₚ elements (returned o2) ∧
    drawn o1 = drawn o2 ∧
    (sum [2; 3; 1; 7] ≠ 9 → sum [2; 3; 1; 7] ≠ 0 →
     returned o1 = returned o2).
Proof.
  intros o. split; [reflexivity|].
  apply (later_search_unaffected [2; 3; 1; 7] 4 o 9). reflexivity.
Defined.

(** X9. What the script reports for a list of positive integers: it
    prints the found message, with a sub-multiset summing to the
    target, when the target is not 0 and some sub-multiset sums to it;
    it prints the failure message when no sub-multiset sums to the
    target, and also when the target is 0, although the empty subset
    was found. *)
Theorem main_reports {time} population_list target_sum (end_time : time) :
  Forall (λ x, 0 < x) population_list →
  (target_sum ≠ 0 → (∃ s, solves population_list target_sum s) →
   ∃ result,
     main population_list target_sum end_time =
       Ok (Found target_sum end_time result) ∧
     solves population_list target_sum (elements result)) ∧
  (target_sum = 0 ∨ (∀ s, ¬ solves population_list target_sum s) →
   main population_list target_sum end_time = Ok (Failed end_time)).
Proof.
  intros Hpos.
  destruct (find_matching_subset_ok population_list target_sum) as [o Hrun].
  unfold main. rewrite Hrun. simpl. split.
  - intros Hnz [s Hs].
    destruct (solution_returned _ _ _ _ Hpos Hrun Hs) as ([Hsub Hsum] & _).
    exists (returned o). split; [|by split].
    unfold truth. destruct (elements (returned o)); [|done].
    by rewrite sum_nil in Hsum.
  - intros [->|Hnone].
    + unfold truth. rewrite (zero_target_returned _ _ Hpos Hrun).
      by destruct (decide (population_list = [])).
    + by rewrite (no_solution_returned _ _ _ Hpos Hrun Hnone).
Qed.

Lemma main_reports_witness :
  (5 ≠ 0 → (∃ s, solves [5; 3; 2] 5 s) →
   ∃ result,
     main [5; 3; 2] 5 () = Ok (Found 5 () result) ∧
     solves [5; 3; 2] 5 (elements result)) ∧
  (5 = 0 ∨ (∀ s, ¬ solves [5; 3; 2] 5 s) →
   main [5; 3; 2] 5 () = Ok (Failed ())).
Proof. apply (main_reports [5; 3; 2] 5 ()). repeat constructor. Defined.

(** X10. The script as it stands, on its own list and target: it
    prints the found message with a tuple drawn from [populations] that
    sums to 100000000 and has at most as many elements as the answer
    recorded in its header. *)
Theorem main_script_run {time} (end_time : time) :
  ∃ c,
    main populations target end_time =
      Ok (Found target end_time (PyTuple c)) ∧
    solves populations target c ∧
    (length c ≤ length recorded_answer)%nat.
Proof.
  assert (Forall (λ x, 0 < x) populations) as Hpos by (repeat constructor).
  assert (solves populations target recorded_answer) as Hs.
  { split; [|reflexivity]. apply sublist_submseteq.
    unfold recorded_answer, populations.
    repeat first [apply sublist_skip | apply sublist_cons].
    apply sublist_nil. }
  assert (sum populations ≠ target) as Hne by discriminate.
  destruct (find_matching_subset_cases populations target)
    as [[[|Hz] _]|[(_ & Hlt & _)|(_ & _ & v & seen & E & Hv)]];
    [done|discriminate Hz|by vm_compute in Hlt|].
  destruct (solution_returned _ _ _ _ Hpos E Hs) as ([Hsub Hsum] & Hlen & _).
  destruct Hlen as [Hlen|]; [|done].
  destruct Hv as [Hmiss|c d pre post Hd Hmiss Hcs Hpre Hc];
    [discriminate Hsum|].
  exists c. unfold main. rewrite E. simpl.
  split_and!; [|by split|done].
  unfold truth. simpl. destruct c; [discriminate Hsum|done].
Qed.

(** X11. The first guard is wider than the empty list: any non-empty
    list of integers whose total is 0 is handed back whole for every
    target, so for a target other than 0 the script prints the found
    message with a list that does not sum to the target. *)
Theorem zero_total_reported_found {time} population_list target_sum
    (end_time : time) :
  sum population_list = 0 → population_list ≠ [] → target_sum ≠ 0 →
  main population_list target_sum end_time =
    Ok (Found target_sum end_time (PyList population_list)) ∧
  ¬ solves population_list target_sum population_list.
Proof.
  intros Hz Hne Ht. split.
  - unfold main. rewrite find_matching_subset_base by (by right). simpl.
    unfold truth. simpl. by destruct population_list.
  - intros [_ Hsum]. congruence.
Qed.

Lemma zero_total_reported_found_witness :
  main [1; -1] 5 () = Ok (Found 5 () (PyList [1; -1])) ∧
  ¬ solves [1; -1] 5 [1; -1].
Proof.
  apply (zero_total_reported_found [1; -1] 5 ());
    [reflexivity|discriminate|discriminate].
Defined.
